(** * KajarEngine: the archive directory decoder of [utils/decode.py]

    A shallow embedding of the script and the properties of its four stages:
    the keystream unmasker [decode], the header decoder, the directory
    decompressor and the directory parser.

    Python values are modelled as follows.
    - [bytes] objects are lists of [byte]; iterating one yields the ints
      [0 .. 255], here [int_of_byte].
    - Python ints are unbounded, so they are [Z]; [&], [^] and [>>] are
      [Z.land], [Z.lxor] and [Z.shiftr].
    - A [str] is the list of its code points.
    - An exception ends the script: fallible steps return a [result]. *)

From Stdlib Require Import ZArith List Lia Bool.
From Stdlib Require Import Strings.Byte.
Import ListNotations.
Local Open Scope Z_scope.

(** ** Python values and exceptions *)

Definition bytes := list byte.
Definition str := list Z.

(** The exception classes the script's calls can raise. *)
Inductive exn : Set :=
| OverflowError        (* int.to_bytes *)
| struct_error         (* struct.unpack, struct.unpack_from *)
| zlib_error           (* zlib.decompress *)
| UnicodeDecodeError.  (* bytes.decode *)

Inductive result (A : Type) : Type :=
| Ok (a : A)
| Raise (e : exn).
Arguments Ok {A} a.
Arguments Raise {A} e.

Definition bind {A B : Type} (c : result A) (k : A -> result B) : result B :=
  match c with
  | Ok a => k a
  | Raise e => Raise e
  end.

Declare Scope py_scope.
Delimit Scope py_scope with py.
Notation "x <- c ;; k" := (bind c (fun x => k))
  (at level 61, c at next level, right associativity) : py_scope.
Notation "' pat <- c ;; k" := (bind c (fun x => match x with pat => k end))
  (at level 61, pat pattern, c at next level, right associativity) : py_scope.
Local Open Scope py_scope.

(** A [for] loop over a sequence: the body updates the loop's variables and
    the first exception leaves the loop. *)
Fixpoint for_each {A S : Type} (xs : list A) (body : A -> S -> result S) (s : S)
  : result S :=
  match xs with
  | [] => Ok s
  | x :: rest => s' <- body x s ;; for_each rest body s'
  end.

Definition int_of_byte (b : byte) : Z := Z.of_N (Byte.to_N b).

Definition len {A : Type} (l : list A) : Z := Z.of_nat (length l).

(** [n.to_bytes(1)]: one byte, [OverflowError] for a negative int or one
    above 255 (the byte order defaults to big-endian since Python 3.11). *)
Definition to_bytes (n : Z) : result byte :=
  if (n <? 0) || (255 <? n) then Raise OverflowError
  else match Byte.of_N (Z.to_N n) with
       | Some b => Ok b
       | None => Raise OverflowError
       end.

(** Slices clamp their bounds to the sequence; a negative bound counts from
    the end. *)
Definition slice_index {A : Type} (l : list A) (i : Z) : nat :=
  Z.to_nat (if i <? 0 then Z.max 0 (len l + i) else Z.min i (len l)).

(** [l[lo:]] *)
Definition slice_from {A : Type} (l : list A) (lo : Z) : list A :=
  skipn (slice_index l lo) l.

(** [l[lo:hi]] *)
Definition slice {A : Type} (l : list A) (lo hi : Z) : list A :=
  firstn (slice_index l hi - slice_index l lo) (skipn (slice_index l lo) l).

(** [range(start, stop, step)] for a positive step. *)
Definition range (start stop step : Z) : list Z :=
  map (fun k => start + step * Z.of_nat k)
      (seq 0 (Z.to_nat ((stop - start + step - 1) / step))).

(** ** The [struct] module, for the formats the script uses *)

(** A little-endian unsigned integer. *)
Fixpoint le_uint (bs : bytes) : Z :=
  match bs with
  | [] => 0
  | b :: rest => int_of_byte b + 256 * le_uint rest
  end.

(** The [k]-th ['I'] field of a packed little-endian record. *)
Definition field_I (w : bytes) (k : nat) : Z :=
  le_uint (firstn 4 (skipn (4 * k) w)).

(** The bytes [struct.unpack_from] reads for a format of [size] bytes: a
    negative offset counts from the end, and the read must fit the buffer. *)
Definition unpack_window (size : Z) (buffer : bytes) (offset : Z) : result bytes :=
  let offset := if offset <? 0 then offset + len buffer else offset in
  if (offset <? 0) || (len buffer - offset <? size) then Raise struct_error
  else Ok (firstn (Z.to_nat size) (skipn (Z.to_nat offset) buffer)).

(** [struct.unpack_from('<I', buffer, offset)[0]] *)
Definition unpack_from_I (buffer : bytes) (offset : Z) : result Z :=
  w <- unpack_window 4 buffer offset ;; Ok (field_I w 0).

(** [struct.unpack_from('<III', buffer, offset)] *)
Definition unpack_from_III (buffer : bytes) (offset : Z) : result (Z * Z * Z) :=
  w <- unpack_window 12 buffer offset ;; Ok (field_I w 0, field_I w 1, field_I w 2).

(** [struct.unpack('<IIII', buffer)]: the buffer must have the format's size. *)
Definition unpack_IIII (buffer : bytes) : result (Z * Z * Z * Z) :=
  if len buffer =? 16
  then Ok (field_I buffer 0, field_I buffer 1, field_I buffer 2, field_I buffer 3)
  else Raise struct_error.

(** [struct.unpack_from('s', buffer, offset)[0]]: ['s'] without a count is a
    [char[1]], a [bytes] of length one. *)
Definition unpack_from_s (buffer : bytes) (offset : Z) : result bytes :=
  unpack_window 1 buffer offset.

(** ** [bytes.decode('utf-8')] *)

Definition is_cont (b : Z) : bool := (0x80 <=? b) && (b <=? 0xBF).
Definition in_range (lo b hi : Z) : bool := (lo <=? b) && (b <=? hi).
Definition cont_bits (b : Z) : Z := Z.land b 0x3F.

(** Strict UTF-8: shortest forms only, no surrogates, nothing above U+10FFFF. *)
Fixpoint utf8_decode (bs : bytes) : result str :=
  match bs with
  | [] => Ok []
  | b0 :: r0 =>
    let c0 := int_of_byte b0 in
    if c0 <? 0x80 then
      s <- utf8_decode r0 ;; Ok (c0 :: s)
    else
      match r0 with
      | [] => Raise UnicodeDecodeError
      | b1 :: r1 =>
        let c1 := int_of_byte b1 in
        if in_range 0xC2 c0 0xDF then
          if is_cont c1 then
            s <- utf8_decode r1 ;;
            Ok (Z.shiftl (Z.land c0 0x1F) 6 + cont_bits c1 :: s)
          else Raise UnicodeDecodeError
        else
          match r1 with
          | [] => Raise UnicodeDecodeError
          | b2 :: r2 =>
            let c2 := int_of_byte b2 in
            if in_range 0xE0 c0 0xEF then
              if in_range (if c0 =? 0xE0 then 0xA0 else 0x80) c1
                          (if c0 =? 0xED then 0x9F else 0xBF) && is_cont c2
              then
                s <- utf8_decode r2 ;;
                Ok (Z.shiftl (Z.land c0 0x0F) 12 + Z.shiftl (cont_bits c1) 6
                    + cont_bits c2 :: s)
              else Raise UnicodeDecodeError
            else
              match r2 with
              | [] => Raise UnicodeDecodeError
              | b3 :: r3 =>
                let c3 := int_of_byte b3 in
                if in_range 0xF0 c0 0xF4
                   && in_range (if c0 =? 0xF0 then 0x90 else 0x80) c1
                               (if c0 =? 0xF4 then 0x8F else 0xBF)
                   && is_cont c2 && is_cont c3
                then
                  s <- utf8_decode r3 ;;
                  Ok (Z.shiftl (Z.land c0 0x07) 18 + Z.shiftl (cont_bits c1) 12
                      + Z.shiftl (cont_bits c2) 6 + cont_bits c3 :: s)
                else Raise UnicodeDecodeError
              end
          end
      end
  end.

(** ** The script *)

Module Header.
Record t : Set := mk { signature : Z; size : Z; offset : Z; compressed_size : Z }.
End Header.

Module Entry.
Record t : Set := mk { path_offset : Z; offset : Z; size : Z }.
End Entry.

(** [decode(buf, offset=0)] *)
Definition decode (buf : bytes) (offset : Z) : result bytes :=
  let seed := 0x19000000 + offset in
  let out : bytes := [] in
  '(_, out) <- for_each buf (fun b '(seed, out) =>
      let seed := Z.land (seed * 0x41C64E6D + 12345) 0xFFFFFFFF in
      x <- to_bytes (Z.lxor (int_of_byte b) (Z.shiftr seed 24)) ;;
      Ok (seed, out ++ [x])) (seed, out) ;;
  Ok out.

(** The four stages of the script's body, under the names the design gives
    them. [buf] is the whole archive file. *)

(** [buf2 = decode(buf[0:16])],
    [header = Header] of the fields of [struct.unpack('<IIII', buf2)] *)
Definition decode_header (buf : bytes) : result Header.t :=
  buf2 <- decode (slice buf 0 16) 0 ;;
  '(signature, size, offset, compressed_size) <- unpack_IIII buf2 ;;
  Ok (Header.mk signature size offset compressed_size).

Section Zlib.

(** [zlib.decompress(data, wbits)] belongs to the zlib library: it is a
    parameter of the script, [None] standing for [zlib.error]. *)
Variable zlib_decompress : bytes -> Z -> option bytes.

Definition zlib_call (data : bytes) (wbits : Z) : result bytes :=
  match zlib_decompress data wbits with
  | Some d => Ok d
  | None => Raise zlib_error
  end.

(** [buf2 = decode(buf[(header.offset):], header.offset)],
    [dcmp = zlib.decompress(buf2[4:], 31)] *)
Definition decompress_directory (buf : bytes) (header : Header.t) : result bytes :=
  buf2 <- decode (slice_from buf (Header.offset header)) (Header.offset header) ;;
  zlib_call (slice_from buf2 4) 31.

End Zlib.

(** [struct.unpack_from('s', dcmp, e.path_offset)[0].decode('utf-8')] *)
Definition read_path (dcmp : bytes) (path_offset : Z) : result str :=
  s <- unpack_from_s dcmp path_offset ;; utf8_decode s.

(** From [nentries = struct.unpack_from('<I', dcmp, 0)[0]] to the end of the
    loop that fills [paths]. *)
Definition parse_directory (dcmp : bytes) : result (list str) :=
  nentries <- unpack_from_I dcmp 0 ;;
  let dcmp := slice_from dcmp 4 in
  let entries : list Entry.t := [] in
  entries <- for_each (range 0 (nentries * 12) 12) (fun i entries =>
      '(path_offset, offset, size) <- unpack_from_III dcmp i ;;
      Ok (entries ++ [Entry.mk path_offset offset size])) entries ;;
  let paths : list str := [] in
  for_each entries (fun e paths =>
      p <- read_path dcmp (Entry.path_offset e) ;;
      Ok (paths ++ [p])) paths.

(** The script's body on the file's contents: the paths it prints, in
    order. *)
Definition main (zlib_decompress : bytes -> Z -> option bytes) (buf : bytes)
  : result (list str) :=
  header <- decode_header buf ;;
  dcmp <- decompress_directory zlib_decompress buf header ;;
  parse_directory dcmp.

(** ** The loops' bodies

    The bodies of the script's three loops, named: [decode], and the two
    loops of the directory parser, are the loops over these. *)

Definition decode_body (b : byte) (st : Z * bytes) : result (Z * bytes) :=
  let '(seed, out) := st in
  let seed := Z.land (seed * 0x41C64E6D + 12345) 0xFFFFFFFF in
  x <- to_bytes (Z.lxor (int_of_byte b) (Z.shiftr seed 24)) ;;
  Ok (seed, out ++ [x]).

Definition entry_step (dcmp : bytes) (i : Z) (entries : list Entry.t)
  : result (list Entry.t) :=
  '(path_offset, offset, size) <- unpack_from_III dcmp i ;;
  Ok (entries ++ [Entry.mk path_offset offset size]).

Definition path_step (dcmp : bytes) (e : Entry.t) (paths : list str)
  : result (list str) :=
  p <- read_path dcmp (Entry.path_offset e) ;; Ok (paths ++ [p]).

(** ** The design's wording of the stages *)

(** One byte of an int, "truncated to one byte". *)
Definition byte_of_Z (n : Z) : byte :=
  match Byte.of_N (Z.to_N (n mod 256)) with
  | Some b => b
  | None => x00
  end.

(** The generator: modulus 2^32, multiplier 0x41C64E6D, increment 12345. *)
Definition lcg_next (seed : Z) : Z := (seed * 0x41C64E6D + 12345) mod 2 ^ 32.

(** The mask byte: the top 8 bits of the 32-bit state. *)
Definition mask_byte (seed : Z) : Z := Z.shiftr seed 24 mod 256.

(** Per input byte, in order: advance the state, derive the mask from the
    updated state, output the input byte XOR the mask. *)
Fixpoint unmask_from (seed : Z) (buffer : bytes) : bytes :=
  match buffer with
  | [] => []
  | b :: rest =>
    let seed := lcg_next seed in
    byte_of_Z (Z.lxor (int_of_byte b) (mask_byte seed)) :: unmask_from seed rest
  end.

Definition unmask (buffer : bytes) (base_offset : Z) : bytes :=
  unmask_from ((0x19000000 + base_offset) mod 2 ^ 32) buffer.

(** A 4-byte little-endian unsigned integer. *)
Definition pack_I (n : Z) : bytes :=
  [byte_of_Z n; byte_of_Z (n / 2 ^ 8); byte_of_Z (n / 2 ^ 16); byte_of_Z (n / 2 ^ 24)].

(** The 16 header bytes before masking. *)
Definition pack_header (h : Header.t) : bytes :=
  pack_I (Header.signature h) ++ pack_I (Header.size h)
  ++ pack_I (Header.offset h) ++ pack_I (Header.compressed_size h).

Definition is_uint32 (n : Z) : Prop := 0 <= n < 2 ^ 32.

(** The bytes up to and excluding the first zero byte. *)
Fixpoint until_zero (bs : bytes) : bytes :=
  match bs with
  | [] => []
  | b :: rest => if int_of_byte b =? 0 then [] else b :: until_zero rest
  end.

(** A path as the design resolves it: begin at [body[path_offset]], consume
    up to the first zero byte, decode as UTF-8. *)
Definition resolve_path (body : bytes) (path_offset : Z) : result str :=
  utf8_decode (until_zero (skipn (Z.to_nat path_offset) body)).

(** The [i]-th 12-byte record of the entry table. *)
Definition entry_at (body : bytes) (i : nat) : Entry.t :=
  let w := firstn 12 (skipn (12 * i) body) in
  Entry.mk (field_I w 0) (field_I w 1) (field_I w 2).

Definition entry_table (body : bytes) (n : nat) : list Entry.t :=
  map (entry_at body) (seq 0 n).

(** The design's error taxonomy, for the exceptions of the script: a
    [struct.error] is what a too short buffer gives the header decoder and
    the directory parser, undecodable path bytes are a format error too, and
    nothing the script calls signals a bounds error of its own. *)
Inductive spec_error : Set := BoundsError | DecompressionError | FormatError.

Definition spec_error_of (e : exn) : spec_error :=
  match e with
  | zlib_error => DecompressionError
  | struct_error | UnicodeDecodeError | OverflowError => FormatError
  end.

(** The state after [n] input bytes of a region unmasked at [base_offset]. *)
Definition seed_after (base_offset : Z) (n : nat) : Z :=
  Nat.iter n lcg_next ((0x19000000 + base_offset) mod 2 ^ 32).

(** What the loop over [entries] appends: per entry, in order, the one
    character of the byte at its [path_offset]. *)
Definition one_byte_path (body : bytes) (e : Entry.t) (p : str) : Prop :=
  exists b, nth_error body (Z.to_nat (Entry.path_offset e)) = Some b
            /\ int_of_byte b < 0x80 /\ p = [int_of_byte b].

(** ** Sample inputs *)

(** A 16-byte archive, the masked header alone, whose header places the
    directory at offset 16, the end of the file. *)
Definition header_only : Header.t := Header.mk 0 16 16 0.
Definition header_only_archive : bytes := unmask (pack_header header_only) 0.

(** A directory of two entries whose paths are the null-terminated strings
    ["ab"] and ["cd"], at offsets 24 and 27 of the buffer after the count. *)
Definition two_entry_directory : bytes :=
  [x02; x00; x00; x00;
   x18; x00; x00; x00;  x00; x00; x00; x00;  x05; x00; x00; x00;
   x1b; x00; x00; x00;  x05; x00; x00; x00;  x07; x00; x00; x00;
   x61; x62; x00;
   x63; x64; x00].

(** A directory of three entries with paths ["a"], the first byte of a
    two-byte UTF-8 character, and an offset past the end. *)
Definition bad_paths_directory : bytes :=
  [x03; x00; x00; x00;
   x24; x00; x00; x00;  x00; x00; x00; x00;  x01; x00; x00; x00;
   x25; x00; x00; x00;  x01; x00; x00; x00;  x02; x00; x00; x00;
   xff; x00; x00; x00;  x03; x00; x00; x00;  x01; x00; x00; x00;
   x61; xc3; xa9].

(** A directory of one entry whose path ["ab"] starts at offset 12 of the
    buffer after the count and runs to the end of the buffer, with no zero
    byte after it. *)
Definition unterminated_path_directory : bytes :=
  [x01; x00; x00; x00;
   x0c; x00; x00; x00;  x00; x00; x00; x00;  x02; x00; x00; x00;
   x61; x62].

(** * Properties *)

(** ** Sequencing *)

Lemma bind_Ok {A B : Type} (c : result A) (k : A -> result B) (a : A) (r : result B) :
  c = Ok a -> k a = r -> bind c k = r.
Proof.
  intros -> <-. reflexivity.
Qed.

(** ** Bytes and ints *)

Lemma int_of_byte_range (b : byte) : 0 <= int_of_byte b < 256.
Proof.
  unfold int_of_byte. pose proof (Byte.to_N_bounded b). lia.
Qed.

Lemma int_of_byte_inj (a b : byte) : int_of_byte a = int_of_byte b -> a = b.
Proof.
  unfold int_of_byte. intros H. apply N2Z.inj in H.
  pose proof (Byte.of_to_N a) as Ha. rewrite H, Byte.of_to_N in Ha.
  congruence.
Qed.

Lemma of_N_byte (n : Z) :
  0 <= n < 256 -> exists b, Byte.of_N (Z.to_N n) = Some b /\ int_of_byte b = n.
Proof.
  intros Hn. destruct (Byte.of_N (Z.to_N n)) as [b|] eqn:E.
  - exists b. split; [reflexivity|]. unfold int_of_byte.
    apply Byte.to_of_N in E. rewrite E. lia.
  - apply Byte.of_N_None_iff in E. lia.
Qed.

Lemma int_of_byte_of_Z (n : Z) : 0 <= n < 256 -> int_of_byte (byte_of_Z n) = n.
Proof.
  intros Hn. unfold byte_of_Z. rewrite Z.mod_small by assumption.
  destruct (of_N_byte n Hn) as [b [-> Hb]]. exact Hb.
Qed.

Lemma byte_of_Z_int (b : byte) : byte_of_Z (int_of_byte b) = b.
Proof.
  apply int_of_byte_inj, int_of_byte_of_Z, int_of_byte_range.
Qed.

Lemma to_bytes_byte (n : Z) : 0 <= n < 256 -> to_bytes n = Ok (byte_of_Z n).
Proof.
  intros Hn. unfold to_bytes, byte_of_Z. rewrite Z.mod_small by assumption.
  replace (n <? 0) with false by (symmetry; apply Z.ltb_ge; lia).
  replace (255 <? n) with false by (symmetry; apply Z.ltb_ge; lia).
  destruct (of_N_byte n Hn) as [b [-> _]]. reflexivity.
Qed.

Lemma lxor_byte_range (a b : Z) :
  0 <= a < 256 -> 0 <= b < 256 -> 0 <= Z.lxor a b < 256.
Proof.
  intros Ha Hb.
  assert (H0 : 0 <= Z.lxor a b) by (apply Z.lxor_nonneg; lia).
  split; [exact H0|].
  destruct (Z.eq_dec (Z.lxor a b) 0) as [->|Hne]; [lia|].
  change 256 with (2 ^ 8). apply Z.log2_lt_pow2; [lia|].
  pose proof (Z.log2_lxor a b ltac:(lia) ltac:(lia)) as Hl.
  assert (La : Z.log2 a < 8).
  { destruct (Z.eq_dec a 0) as [->|]; [reflexivity|].
    apply Z.log2_lt_pow2; [lia|]. change (2 ^ 8) with 256. lia. }
  assert (Lb : Z.log2 b < 8).
  { destruct (Z.eq_dec b 0) as [->|]; [reflexivity|].
    apply Z.log2_lt_pow2; [lia|]. change (2 ^ 8) with 256. lia. }
  lia.
Qed.

Lemma lxor_twice (a m : Z) : Z.lxor (Z.lxor a m) m = a.
Proof.
  rewrite Z.lxor_assoc, Z.lxor_nilpotent. apply Z.lxor_0_r.
Qed.

(** ** The generator *)

Lemma land_mask32 (n : Z) : Z.land n 0xFFFFFFFF = n mod 2 ^ 32.
Proof.
  change 0xFFFFFFFF with (Z.ones 32). apply Z.land_ones. lia.
Qed.

Lemma lcg_next_range (seed : Z) : 0 <= lcg_next seed < 2 ^ 32.
Proof.
  unfold lcg_next. apply Z.mod_pos_bound. reflexivity.
Qed.

Lemma lcg_next_mod (seed : Z) : lcg_next (seed mod 2 ^ 32) = lcg_next seed.
Proof.
  unfold lcg_next.
  rewrite <- (Z.add_mod_idemp_l (seed mod 2 ^ 32 * _)) by lia.
  rewrite Z.mul_mod_idemp_l by lia.
  rewrite Z.add_mod_idemp_l by lia. reflexivity.
Qed.

Lemma top_byte_range (seed : Z) : 0 <= seed < 2 ^ 32 -> 0 <= Z.shiftr seed 24 < 256.
Proof.
  intros H. rewrite Z.shiftr_div_pow2 by lia. split.
  - apply Z.div_pos; lia.
  - apply Z.div_lt_upper_bound; [lia|]. change (2 ^ 24 * 256) with (2 ^ 32). lia.
Qed.

Lemma mask_byte_top (seed : Z) :
  0 <= seed < 2 ^ 32 -> mask_byte seed = Z.shiftr seed 24.
Proof.
  intros H. unfold mask_byte. apply Z.mod_small, top_byte_range, H.
Qed.

Lemma mask_byte_range (seed : Z) : 0 <= mask_byte seed < 256.
Proof.
  unfold mask_byte. apply Z.mod_pos_bound. reflexivity.
Qed.

Lemma unmask_from_mod (seed : Z) (buffer : bytes) :
  unmask_from (seed mod 2 ^ 32) buffer = unmask_from seed buffer.
Proof.
  destruct buffer as [|b rest]; [reflexivity|].
  cbn [unmask_from]. rewrite lcg_next_mod. reflexivity.
Qed.

Lemma unmask_from_length (seed : Z) (buffer : bytes) :
  length (unmask_from seed buffer) = length buffer.
Proof.
  revert seed. induction buffer as [|b rest IH]; intros seed; [reflexivity|].
  cbn [unmask_from length]. now rewrite IH.
Qed.

Lemma unmask_from_involutive (seed : Z) (buffer : bytes) :
  unmask_from seed (unmask_from seed buffer) = buffer.
Proof.
  revert seed. induction buffer as [|b rest IH]; intros seed; [reflexivity|].
  cbn [unmask_from]. rewrite IH. f_equal.
  rewrite int_of_byte_of_Z
    by (apply lxor_byte_range; [apply int_of_byte_range|apply mask_byte_range]).
  rewrite lxor_twice. apply byte_of_Z_int.
Qed.

(** ** The loop of [decode] *)

Lemma decode_body_step (b : byte) (seed : Z) (out : bytes) :
  decode_body b (seed, out)
  = Ok (lcg_next seed,
        out ++ [byte_of_Z (Z.lxor (int_of_byte b) (mask_byte (lcg_next seed)))]).
Proof.
  unfold decode_body. rewrite land_mask32. fold (lcg_next seed).
  pose proof (lcg_next_range seed) as Hs.
  rewrite mask_byte_top by exact Hs.
  rewrite to_bytes_byte
    by (apply lxor_byte_range; [apply int_of_byte_range|apply top_byte_range, Hs]).
  reflexivity.
Qed.

Lemma decode_loop (buf : bytes) (seed : Z) (out : bytes) :
  exists seed',
    for_each buf decode_body (seed, out) = Ok (seed', out ++ unmask_from seed buf).
Proof.
  revert seed out. induction buf as [|b rest IH]; intros seed out.
  - exists seed. cbn. now rewrite app_nil_r.
  - cbn [for_each unmask_from]. rewrite decode_body_step. cbn [bind].
    destruct (IH (lcg_next seed)
                 (out ++ [byte_of_Z (Z.lxor (int_of_byte b) (mask_byte (lcg_next seed)))]))
      as [s' H].
    exists s'. rewrite <- app_assoc in H. exact H.
Qed.

Lemma decode_unmask (buf : bytes) (offset : Z) :
  decode buf offset = Ok (unmask buf offset).
Proof.
  unfold decode, unmask. rewrite unmask_from_mod.
  destruct (decode_loop buf (0x19000000 + offset) []) as [s' H].
  exact (bind_Ok _ _ _ _ H eq_refl).
Qed.

Lemma iter_lcg_shift (n : nat) (seed : Z) :
  Nat.iter n lcg_next (lcg_next seed) = lcg_next (Nat.iter n lcg_next seed).
Proof.
  rewrite <- Nat.iter_succ_r. apply Nat.iter_succ.
Qed.

Lemma unmask_from_nth (buffer : bytes) (seed : Z) (i : nat) (b : byte) :
  nth_error buffer i = Some b ->
  exists c, nth_error (unmask_from seed buffer) i = Some c
            /\ int_of_byte c
               = Z.lxor (int_of_byte b) (Z.shiftr (Nat.iter (S i) lcg_next seed) 24).
Proof.
  revert seed i. induction buffer as [|x rest IH]; intros seed i Hi.
  - destruct i; discriminate.
  - destruct i as [|i]; cbn [nth_error unmask_from] in *.
    + injection Hi as ->. eexists. split; [reflexivity|].
      change (Nat.iter 1 lcg_next seed) with (lcg_next seed).
      rewrite <- mask_byte_top by apply lcg_next_range.
      apply int_of_byte_of_Z, lxor_byte_range;
        [apply int_of_byte_range|apply mask_byte_range].
    + destruct (IH (lcg_next seed) i Hi) as [c [Hc Hx]].
      exists c. split; [exact Hc|]. rewrite Hx.
      rewrite iter_lcg_shift, <- Nat.iter_succ. reflexivity.
Qed.

(** ** The keystream unmasker *)

(** C1. For every buffer and base offset, [decode] returns (it raises
    nothing) the buffer the design describes, of the length of its input: the
    32-bit state starts at [(0x19000000 + offset) mod 2^32], is advanced once
    per input byte by [seed * 0x41C64E6D + 12345 mod 2^32] before the byte's
    mask is taken, the mask is the top 8 bits [seed >> 24] of the updated
    state, and output byte [i] is input byte [i] XOR that mask. The result
    is a function of the two arguments alone. *)
Theorem unmasker_meets_design (buf : bytes) (offset : Z) :
  decode buf offset = Ok (unmask buf offset)
  /\ length (unmask buf offset) = length buf
  /\ (forall (i : nat) (b : byte), nth_error buf i = Some b ->
        exists c, nth_error (unmask buf offset) i = Some c
                  /\ int_of_byte c
                     = Z.lxor (int_of_byte b)
                              (Z.shiftr (seed_after offset (S i)) 24))
  /\ seed_after offset 0 = (0x19000000 + offset) mod 2 ^ 32
  /\ (forall n : nat,
        seed_after offset (S n)
        = (seed_after offset n * 0x41C64E6D + 12345) mod 2 ^ 32).
Proof.
  split; [apply decode_unmask|].
  split; [apply unmask_from_length|].
  split; [|split; reflexivity].
  intros i b Hi. exact (unmask_from_nth buf _ i b Hi).
Qed.

Lemma unmasker_meets_design_witness :
  decode [x61; x62; x00] 0 = Ok [xc4; x76; x54]
  /\ nth_error [x61; x62; x00] 1 = Some x62
  /\ int_of_byte x76 = Z.lxor (int_of_byte x62) (Z.shiftr (seed_after 0 2) 24).
Proof.
  destruct (unmasker_meets_design [x61; x62; x00] 0) as [Hd [_ [Hn _]]].
  split; [exact Hd|]. split; [reflexivity|].
  destruct (Hn 1%nat x62 eq_refl) as [c [Hc Hx]].
  vm_compute in Hc. injection Hc as <-. exact Hx.
Defined.

Lemma unmask_involutive (buffer : bytes) (base_offset : Z) :
  unmask (unmask buffer base_offset) base_offset = buffer.
Proof.
  apply unmask_from_involutive.
Qed.

(** C2. Unmasking twice with the same base offset restores the buffer:
    [decode(decode(b, o), o) == b], for every buffer, of any length, and
    every offset. *)
Theorem decode_twice (buf : bytes) (offset : Z) :
  exists out, decode buf offset = Ok out /\ decode out offset = Ok buf.
Proof.
  exists (unmask buf offset). split; [apply decode_unmask|].
  rewrite decode_unmask, unmask_involutive. reflexivity.
Qed.

(** ** Slices *)

Lemma slice_from_skipn {A : Type} (l : list A) (lo : Z) :
  0 <= lo -> slice_from l lo = skipn (Z.to_nat lo) l.
Proof.
  intros Hlo. unfold slice_from, slice_index, len.
  replace (lo <? 0) with false by (symmetry; apply Z.ltb_ge; exact Hlo).
  destruct (Z.le_gt_cases lo (Z.of_nat (length l))) as [H|H].
  - now rewrite Z.min_l by exact H.
  - rewrite Z.min_r by lia. rewrite Nat2Z.id.
    rewrite skipn_all. symmetry. apply skipn_all2. lia.
Qed.

Lemma slice_prefix {A : Type} (a rest : list A) (n : Z) :
  len a = n -> slice (a ++ rest) 0 n = a.
Proof.
  intros Hn. unfold slice, slice_index, len in *. rewrite length_app.
  subst n. cbn [Z.ltb Z.compare].
  replace (Z.of_nat (length a) <? 0) with false by (symmetry; apply Z.ltb_ge; lia).
  rewrite Z.min_l by lia. rewrite Z.min_l by lia.
  rewrite Nat2Z.id. cbn [Z.to_nat skipn]. rewrite Nat.sub_0_r.
  rewrite firstn_app, Nat.sub_diag, firstn_all. cbn [firstn]. apply app_nil_r.
Qed.

(** ** Little-endian fields *)

Lemma int_of_byte_of_Z_mod (n : Z) : int_of_byte (byte_of_Z n) = n mod 256.
Proof.
  assert (H : 0 <= n mod 256 < 256) by (apply Z.mod_pos_bound; reflexivity).
  unfold byte_of_Z. destruct (of_N_byte _ H) as [b [-> Hb]]. exact Hb.
Qed.

Lemma le_uint_pack_I (n : Z) : is_uint32 n -> le_uint (pack_I n) = n.
Proof.
  unfold is_uint32, pack_I. intros Hn. cbn [le_uint].
  rewrite !int_of_byte_of_Z_mod.
  change (2 ^ 8) with 256. change (2 ^ 16) with 65536.
  change (2 ^ 24) with 16777216. change (2 ^ 32) with 4294967296 in Hn.
  Z.to_euclidean_division_equations. lia.
Qed.

Lemma field_I_pack_header (h : Header.t) :
  is_uint32 (Header.signature h) -> is_uint32 (Header.size h) ->
  is_uint32 (Header.offset h) -> is_uint32 (Header.compressed_size h) ->
  unpack_IIII (pack_header h) = Ok (Header.signature h, Header.size h,
                                   Header.offset h, Header.compressed_size h).
Proof.
  intros H0 H1 H2 H3. unfold unpack_IIII, pack_header.
  change (len (pack_I (Header.signature h) ++ pack_I (Header.size h)
               ++ pack_I (Header.offset h) ++ pack_I (Header.compressed_size h)))
    with 16.
  cbn [Z.eqb Pos.eqb].
  unfold field_I. cbn [Nat.mul Nat.add skipn firstn app pack_I].
  fold (pack_I (Header.signature h)). fold (pack_I (Header.size h)).
  fold (pack_I (Header.offset h)). fold (pack_I (Header.compressed_size h)).
  now rewrite !le_uint_pack_I.
Qed.

(** ** The header decoder *)

(** C5. A 16-byte header of known 32-bit field values, masked at base offset
    0 with the generator's keystream and placed at the start of an archive,
    is decoded to exactly those values: signature, size, offset and
    compressed size, four consecutive little-endian 4-byte unsigned
    integers. *)
Theorem decode_header_round_trip (h : Header.t) (payload : bytes) :
  is_uint32 (Header.signature h) -> is_uint32 (Header.size h) ->
  is_uint32 (Header.offset h) -> is_uint32 (Header.compressed_size h) ->
  decode_header (unmask (pack_header h) 0 ++ payload) = Ok h.
Proof.
  intros H0 H1 H2 H3. unfold decode_header.
  rewrite slice_prefix
    by (unfold len, unmask; rewrite unmask_from_length; reflexivity).
  rewrite decode_unmask, unmask_involutive. cbn [bind].
  rewrite field_I_pack_header by assumption. cbn [bind].
  destruct h; reflexivity.
Qed.

Lemma decode_header_round_trip_witness :
  is_uint32 0x4B414A52 /\ is_uint32 4096 /\ is_uint32 16 /\ is_uint32 40
  /\ decode_header
       (unmask (pack_header (Header.mk 0x4B414A52 4096 16 40)) 0 ++ [x01; x02; x03])
     = Ok (Header.mk 0x4B414A52 4096 16 40).
Proof.
  assert (U : forall n, 0 <= n < 2 ^ 32 -> is_uint32 n) by (intros n H; exact H).
  split; [apply U; lia|]. split; [apply U; lia|].
  split; [apply U; lia|]. split; [apply U; lia|].
  apply (decode_header_round_trip (Header.mk 0x4B414A52 4096 16 40) [x01; x02; x03]);
    apply U; cbn; lia.
Defined.

(** ** The directory decompressor *)

Lemma decompress_directory_eq (zlib : bytes -> Z -> option bytes)
      (buf : bytes) (header : Header.t) :
  0 <= Header.offset header ->
  decompress_directory zlib buf header
  = zlib_call zlib
      (skipn 4 (unmask (skipn (Z.to_nat (Header.offset header)) buf)
                       (Header.offset header))) 31.
Proof.
  intros Hoff. unfold decompress_directory.
  rewrite decode_unmask. cbn [bind].
  rewrite (slice_from_skipn buf) by exact Hoff.
  rewrite slice_from_skipn by lia. reflexivity.
Qed.

(** C6. With [header.offset] inside the archive, the directory decompressor
    takes the archive from [header.offset] to its end, unmasks it at base
    offset [header.offset] (the position in the file, not 0), drops the
    first 4 bytes of the unmasked bytes and gives the rest to the
    decompressor with window bits 31; what the decompressor returns is the
    stage's result, and its rejection is the stage's failure. *)
Theorem decompress_directory_pipeline (zlib : bytes -> Z -> option bytes)
        (buf : bytes) (header : Header.t) :
  0 <= Header.offset header <= len buf ->
  let suffix := skipn (Z.to_nat (Header.offset header)) buf in
  let unmasked := unmask suffix (Header.offset header) in
  decompress_directory zlib buf header
  = match zlib (skipn 4 unmasked) 31 with
    | Some dcmp => Ok dcmp
    | None => Raise zlib_error
    end.
Proof.
  intros [Hoff _]. cbv zeta. now rewrite decompress_directory_eq.
Qed.

Lemma decompress_directory_pipeline_witness :
  0 <= 2 <= len [x01; x02; x03; x04; x05; x06; x07; x08; x09; x0a]
  /\ decompress_directory (fun data _ => Some (rev data))
       [x01; x02; x03; x04; x05; x06; x07; x08; x09; x0a] (Header.mk 0 10 2 8)
     = Ok [xaf; xfb; xb2; xde].
Proof.
  split; [cbn; lia|].
  rewrite (decompress_directory_pipeline (fun data _ => Some (rev data))
             [x01; x02; x03; x04; x05; x06; x07; x08; x09; x0a] (Header.mk 0 10 2 8)).
  - reflexivity.
  - cbn. lia.
Defined.

(** C7, as the script has it. With [header.offset] at or past the end of the
    archive nothing is read out of range: the slice is empty, the
    decompressor is run on the empty input and its outcome is the stage's.
    A failure is therefore the decompressor's own error, never a bounds
    error. *)
Theorem decompress_directory_past_end (zlib : bytes -> Z -> option bytes)
        (buf : bytes) (header : Header.t) :
  len buf <= Header.offset header ->
  decompress_directory zlib buf header
  = match zlib [] 31 with
    | Some dcmp => Ok dcmp
    | None => Raise zlib_error
    end
  /\ (forall e : exn, decompress_directory zlib buf header = Raise e ->
        e = zlib_error /\ spec_error_of e = DecompressionError).
Proof.
  intros Hoff.
  assert (E : decompress_directory zlib buf header = zlib_call zlib [] 31).
  { rewrite decompress_directory_eq by (unfold len in Hoff; lia).
    rewrite (skipn_all2 buf) by (unfold len in Hoff; lia). reflexivity. }
  split; [exact E|].
  intros e He. rewrite E in He. unfold zlib_call in He.
  destruct (zlib [] 31); [discriminate|].
  injection He as <-. split; reflexivity.
Qed.

Lemma decompress_directory_past_end_witness :
  len [x01; x02; x03] <= 7
  /\ decompress_directory (fun _ _ => None) [x01; x02; x03] (Header.mk 0 3 7 0)
     = Raise zlib_error.
Proof.
  split; [cbn; lia|].
  apply (decompress_directory_past_end (fun _ _ => None) [x01; x02; x03]
           (Header.mk 0 3 7 0)).
  cbn. lia.
Defined.

(** C7 as stated fails on [header_only_archive]: the header decodes, its
    offset equals the archive's length, and whatever the decompressor does
    with the empty input is the outcome; a failure is a decompression error,
    not a bounds error. *)
Lemma decompress_directory_no_bounds_error :
  decode_header header_only_archive = Ok header_only
  /\ Header.offset header_only = len header_only_archive
  /\ (forall zlib : bytes -> Z -> option bytes,
        decompress_directory zlib header_only_archive header_only
        = zlib_call zlib [] 31)
  /\ (forall (zlib : bytes -> Z -> option bytes) (e : exn),
        decompress_directory zlib header_only_archive header_only = Raise e ->
        spec_error_of e <> BoundsError).
Proof.
  split; [reflexivity|]. split; [reflexivity|]. split.
  - intros zlib. reflexivity.
  - intros zlib e He.
    change (decompress_directory zlib header_only_archive header_only)
      with (zlib_call zlib [] 31) in He.
    unfold zlib_call in He. destruct (zlib [] 31); [discriminate|].
    injection He as <-. discriminate.
Qed.

(** ** Reads of [struct.unpack_from] *)

Lemma le_uint_nonneg (bs : bytes) : 0 <= le_uint bs.
Proof.
  induction bs as [|b rest IH]; cbn [le_uint]; [lia|].
  pose proof (int_of_byte_range b). lia.
Qed.

Lemma field_I_nonneg (w : bytes) (k : nat) : 0 <= field_I w k.
Proof.
  apply le_uint_nonneg.
Qed.

Lemma unpack_window_fits (size : Z) (buffer : bytes) (offset : Z) :
  0 <= offset -> offset + size <= len buffer ->
  unpack_window size buffer offset
  = Ok (firstn (Z.to_nat size) (skipn (Z.to_nat offset) buffer)).
Proof.
  intros Ho Hs. unfold unpack_window.
  destruct (Z.ltb_spec offset 0) as [Hneg|_]; [lia|]. cbv beta iota zeta.
  destruct (Z.ltb_spec offset 0) as [Hneg|_]; [lia|].
  destruct (Z.ltb_spec (len buffer - offset) size) as [Hlt|_]; [lia|].
  reflexivity.
Qed.

Lemma unpack_window_overrun (size : Z) (buffer : bytes) (offset : Z) :
  0 <= offset -> len buffer < offset + size ->
  unpack_window size buffer offset = Raise struct_error.
Proof.
  intros Ho Hs. unfold unpack_window.
  destruct (Z.ltb_spec offset 0) as [Hneg|_]; [lia|]. cbv beta iota zeta.
  destruct (Z.ltb_spec offset 0) as [Hneg|_]; [lia|].
  destruct (Z.ltb_spec (len buffer - offset) size) as [_|Hge]; [|lia].
  reflexivity.
Qed.

Lemma unpack_window_exn (size : Z) (buffer : bytes) (offset : Z) (e : exn) :
  unpack_window size buffer offset = Raise e -> e = struct_error.
Proof.
  unfold unpack_window.
  destruct (_ || _); [|discriminate]. now intros [= <-].
Qed.

Lemma skipn_nth_error {A : Type} (l : list A) (k : nat) (x : A) :
  nth_error l k = Some x -> exists rest, skipn k l = x :: rest.
Proof.
  revert k. induction l as [|y l IH]; intros [|k] H; try discriminate.
  - injection H as ->. now exists l.
  - exact (IH k H).
Qed.

Lemma unpack_window_one (buffer : bytes) (offset : Z) (w : bytes) :
  unpack_window 1 buffer offset = Ok w -> exists b, w = [b].
Proof.
  unfold unpack_window.
  set (o := if offset <? 0 then offset + len buffer else offset).
  destruct ((o <? 0) || (len buffer - o <? 1)) eqn:E; [discriminate|].
  apply orb_false_elim in E as [E1 E2].
  apply Z.ltb_ge in E1, E2. intros [= <-].
  destruct (nth_error buffer (Z.to_nat o)) as [b|] eqn:Hn.
  - destruct (skipn_nth_error _ _ _ Hn) as [rest ->]. now exists b.
  - apply nth_error_None in Hn. unfold len in E2. lia.
Qed.

(** ** The loop that fills [entries] *)

Lemma range_entries (nentries : Z) :
  0 <= nentries ->
  range 0 (nentries * 12) 12
  = map (fun k => 12 * Z.of_nat k) (seq 0 (Z.to_nat nentries)).
Proof.
  intros Hn. unfold range.
  replace ((nentries * 12 - 0 + 12 - 1) / 12) with nentries
    by (Z.to_euclidean_division_equations; lia).
  apply map_ext. intros k. lia.
Qed.

Lemma entry_step_fits (body : bytes) (a : nat) (acc : list Entry.t) :
  12 * (Z.of_nat a + 1) <= len body ->
  entry_step body (12 * Z.of_nat a) acc = Ok (acc ++ [entry_at body a]).
Proof.
  intros H. unfold entry_step, unpack_from_III.
  rewrite unpack_window_fits by lia. cbn [bind].
  replace (Z.to_nat (12 * Z.of_nat a)) with (12 * a)%nat by lia.
  reflexivity.
Qed.

Lemma entry_step_overrun (body : bytes) (a : nat) (acc : list Entry.t) :
  len body < 12 * (Z.of_nat a + 1) ->
  entry_step body (12 * Z.of_nat a) acc = Raise struct_error.
Proof.
  intros H. unfold entry_step, unpack_from_III.
  rewrite unpack_window_overrun by lia. reflexivity.
Qed.

Lemma entries_loop_fits (body : bytes) (m a : nat) (acc : list Entry.t) :
  12 * (Z.of_nat a + Z.of_nat m) <= len body ->
  for_each (map (fun k => 12 * Z.of_nat k) (seq a m)) (entry_step body) acc
  = Ok (acc ++ map (entry_at body) (seq a m)).
Proof.
  revert a acc. induction m as [|m IH]; intros a acc H.
  - cbn. now rewrite app_nil_r.
  - cbn [seq map for_each]. rewrite entry_step_fits by lia. cbn [bind].
    rewrite IH by lia. now rewrite <- app_assoc.
Qed.

Lemma entries_loop_overrun (body : bytes) (m a : nat) (acc : list Entry.t) :
  (0 < m)%nat ->
  len body < 12 * (Z.of_nat a + Z.of_nat m) ->
  for_each (map (fun k => 12 * Z.of_nat k) (seq a m)) (entry_step body) acc
  = Raise struct_error.
Proof.
  revert a acc. induction m as [|m IH]; intros a acc Hm H; [lia|].
  cbn [seq map for_each].
  destruct (Z.lt_ge_cases (len body) (12 * (Z.of_nat a + 1))) as [Hlt|Hge].
  - now rewrite entry_step_overrun by exact Hlt.
  - rewrite entry_step_fits by lia. cbn [bind]. apply IH; lia.
Qed.

(** ** The loop that fills [paths] *)

Lemma utf8_decode_one (b : byte) :
  utf8_decode [b]
  = if int_of_byte b <? 0x80 then Ok [int_of_byte b] else Raise UnicodeDecodeError.
Proof.
  cbn [utf8_decode]. destruct (int_of_byte b <? 0x80); reflexivity.
Qed.

Lemma read_path_byte (body : bytes) (path_offset : Z) :
  0 <= path_offset ->
  read_path body path_offset
  = match nth_error body (Z.to_nat path_offset) with
    | Some b => if int_of_byte b <? 0x80 then Ok [int_of_byte b]
                else Raise UnicodeDecodeError
    | None => Raise struct_error
    end.
Proof.
  intros Ho. unfold read_path, unpack_from_s.
  destruct (nth_error body (Z.to_nat path_offset)) as [b|] eqn:Hn.
  - assert (Hlt : (Z.to_nat path_offset < length body)%nat)
      by (apply nth_error_Some; congruence).
    rewrite unpack_window_fits by (unfold len; lia). cbn [bind].
    destruct (skipn_nth_error _ _ _ Hn) as [rest ->].
    change (firstn (Z.to_nat 1) (b :: rest)) with [b]. apply utf8_decode_one.
  - apply nth_error_None in Hn.
    rewrite unpack_window_overrun by (unfold len; lia). reflexivity.
Qed.

Lemma read_path_one_char (body : bytes) (path_offset : Z) (p : str) :
  read_path body path_offset = Ok p -> length p = 1%nat.
Proof.
  unfold read_path, unpack_from_s.
  destruct (unpack_window 1 body path_offset) as [w|e] eqn:Hw; [|discriminate].
  destruct (unpack_window_one _ _ _ Hw) as [b ->]. cbn [bind].
  rewrite utf8_decode_one. destruct (_ <? _); [|discriminate].
  now intros [= <-].
Qed.

Lemma read_path_exn (body : bytes) (path_offset : Z) (e : exn) :
  read_path body path_offset = Raise e ->
  e = struct_error \/ e = UnicodeDecodeError.
Proof.
  unfold read_path, unpack_from_s.
  destruct (unpack_window 1 body path_offset) as [w|x] eqn:Hw.
  - destruct (unpack_window_one _ _ _ Hw) as [b ->]. cbn [bind].
    rewrite utf8_decode_one. destruct (_ <? _); [discriminate|].
    intros [= <-]. now right.
  - apply unpack_window_exn in Hw as ->. intros [= <-]. now left.
Qed.

Lemma paths_loop_one_char (body : bytes) (entries : list Entry.t)
      (acc paths : list str) :
  for_each entries (path_step body) acc = Ok paths ->
  Forall (fun p => length p = 1%nat) acc ->
  Forall (fun p => length p = 1%nat) paths.
Proof.
  revert acc. induction entries as [|e rest IH]; intros acc H Hacc.
  - injection H as <-. exact Hacc.
  - cbn [for_each] in H. unfold path_step at 1 in H.
    destruct (read_path body (Entry.path_offset e)) as [p|x] eqn:Hp;
      [|discriminate].
    cbn [bind] in H. apply (IH _ H).
    apply Forall_app. split; [exact Hacc|].
    constructor; [|constructor]. exact (read_path_one_char _ _ _ Hp).
Qed.


(** ** The directory parser *)

Lemma parse_directory_short (dcmp : bytes) :
  len dcmp < 4 -> parse_directory dcmp = Raise struct_error.
Proof.
  intros H. unfold parse_directory, unpack_from_I.
  rewrite unpack_window_overrun by lia. reflexivity.
Qed.

Lemma parse_directory_entries (dcmp : bytes) :
  4 <= len dcmp ->
  parse_directory dcmp
  = (entries <- for_each
       (map (fun k => 12 * Z.of_nat k)
            (seq 0 (Z.to_nat (le_uint (firstn 4 dcmp)))))
       (entry_step (skipn 4 dcmp)) [] ;;
     for_each entries (path_step (skipn 4 dcmp)) []).
Proof.
  intros H. unfold parse_directory, unpack_from_I.
  rewrite unpack_window_fits by lia. cbn [bind].
  change (skipn (Z.to_nat 0) dcmp) with dcmp.
  change (Z.to_nat 4) with 4%nat.
  unfold field_I. change (skipn (4 * 0) (firstn 4 dcmp)) with (firstn 4 dcmp).
  rewrite firstn_firstn. change (Nat.min 4 4) with 4%nat.
  rewrite range_entries by apply le_uint_nonneg.
  rewrite slice_from_skipn by lia. reflexivity.
Qed.

Lemma parse_directory_table (dcmp : bytes) :
  4 <= len dcmp ->
  12 * le_uint (firstn 4 dcmp) <= len (skipn 4 dcmp) ->
  parse_directory dcmp
  = for_each (entry_table (skipn 4 dcmp) (Z.to_nat (le_uint (firstn 4 dcmp))))
             (path_step (skipn 4 dcmp)) [].
Proof.
  intros H4 Ht. rewrite parse_directory_entries by exact H4.
  pose proof (le_uint_nonneg (firstn 4 dcmp)) as Hn.
  rewrite entries_loop_fits by lia. reflexivity.
Qed.

Lemma parse_directory_overrun (dcmp : bytes) :
  4 <= len dcmp ->
  len (skipn 4 dcmp) < 12 * le_uint (firstn 4 dcmp) ->
  parse_directory dcmp = Raise struct_error.
Proof.
  intros H4 Ht. rewrite parse_directory_entries by exact H4.
  pose proof (le_uint_nonneg (firstn 4 dcmp)) as Hn.
  assert (Hb : 0 <= len (skipn 4 dcmp)) by (unfold len; lia).
  rewrite entries_loop_overrun by lia. reflexivity.
Qed.

Lemma entry_table_nonneg (body : bytes) (n : nat) :
  Forall (fun e => 0 <= Entry.path_offset e) (entry_table body n).
Proof.
  apply Forall_forall. intros e He. unfold entry_table in He.
  apply in_map_iff in He as [i [<- _]]. apply field_I_nonneg.
Qed.

Lemma paths_loop_bytes (body : bytes) (entries : list Entry.t)
      (acc paths : list str) :
  Forall (fun e => 0 <= Entry.path_offset e) entries ->
  for_each entries (path_step body) acc = Ok paths ->
  exists ps, paths = acc ++ ps /\ Forall2 (one_byte_path body) entries ps.
Proof.
  revert acc. induction entries as [|e rest IH]; intros acc Hnn H.
  - injection H as <-. exists []. split; [now rewrite app_nil_r|constructor].
  - inversion Hnn as [|? ? He Hrest]; subst.
    cbn [for_each] in H. unfold path_step at 1 in H.
    rewrite read_path_byte in H by exact He.
    destruct (nth_error body (Z.to_nat (Entry.path_offset e))) as [b|] eqn:Hb;
      [|discriminate].
    destruct (Z.ltb_spec (int_of_byte b) 0x80) as [Hlt|Hge]; [|discriminate].
    cbn [bind] in H. destruct (IH _ Hrest H) as [ps [-> Hps]].
    exists ([int_of_byte b] :: ps). split; [now rewrite <- app_assoc|].
    constructor; [|exact Hps]. exists b. repeat split; assumption.
Qed.

Lemma parse_directory_Ok (dcmp : bytes) (paths : list str) :
  parse_directory dcmp = Ok paths ->
  4 <= len dcmp /\ 12 * le_uint (firstn 4 dcmp) <= len (skipn 4 dcmp).
Proof.
  intros H.
  destruct (Z.lt_ge_cases (len dcmp) 4) as [Hs|H4].
  { rewrite parse_directory_short in H by exact Hs. discriminate. }
  split; [exact H4|].
  destruct (Z.lt_ge_cases (len (skipn 4 dcmp)) (12 * le_uint (firstn 4 dcmp)))
    as [Ho|Hf]; [|exact Hf].
  rewrite parse_directory_overrun in H by assumption. discriminate.
Qed.



(** C9. A directory buffer whose first 4 bytes give [entry_count = 0] parses
    to the empty path sequence and raises nothing; in particular the 4-byte
    buffer with no entry record and no string table after the count. *)
Theorem parse_directory_no_entries (dcmp : bytes) :
  4 <= len dcmp -> le_uint (firstn 4 dcmp) = 0 -> parse_directory dcmp = Ok [].
Proof.
  intros H4 Hn. rewrite parse_directory_entries by exact H4.
  rewrite Hn. reflexivity.
Qed.

Lemma parse_directory_no_entries_witness :
  len [x00; x00; x00; x00] = 4
  /\ le_uint (firstn 4 [x00; x00; x00; x00]) = 0
  /\ parse_directory [x00; x00; x00; x00] = Ok [].
Proof.
  split; [reflexivity|]. split; [reflexivity|].
  apply (parse_directory_no_entries [x00; x00; x00; x00]).
  - cbn. lia.
  - reflexivity.
Defined.

Lemma main_parses (zlib : bytes -> Z -> option bytes) (buf : bytes)
      (paths : list str) :
  main zlib buf = Ok paths -> exists dcmp, parse_directory dcmp = Ok paths.
Proof.
  unfold main. destruct (decode_header buf) as [header|]; [|discriminate].
  cbn [bind]. destruct (decompress_directory zlib buf header) as [dcmp|];
    [|discriminate].
  cbn [bind]. intros H. now exists dcmp.
Qed.

(** C10. As the script has it, a path is the single byte at
    [dcmp[path_offset]] (struct format ['s']) decoded as UTF-8: when the
    directory parses, the paths are, entry by entry and in entry order, the
    one character of that byte, so every path of a parsed directory, and of a
    parsed archive, has length one; and reading a path raises
    [UnicodeDecodeError] whenever the byte is 0x80 or above. *)
Theorem paths_are_single_bytes :
  (forall (dcmp : bytes) (paths : list str),
      parse_directory dcmp = Ok paths ->
      Forall2 (one_byte_path (skipn 4 dcmp))
              (entry_table (skipn 4 dcmp) (Z.to_nat (le_uint (firstn 4 dcmp))))
              paths
      /\ Forall (fun p => length p = 1%nat) paths)
  /\ (forall (zlib : bytes -> Z -> option bytes) (buf : bytes) (paths : list str),
        main zlib buf = Ok paths -> Forall (fun p => length p = 1%nat) paths)
  /\ (forall (dcmp : bytes) (path_offset : Z) (b : byte),
        0 <= path_offset ->
        nth_error dcmp (Z.to_nat path_offset) = Some b ->
        (int_of_byte b < 0x80 -> read_path dcmp path_offset = Ok [int_of_byte b])
        /\ (0x80 <= int_of_byte b ->
            read_path dcmp path_offset = Raise UnicodeDecodeError)).
Proof.
  assert (P : forall dcmp paths, parse_directory dcmp = Ok paths ->
              Forall2 (one_byte_path (skipn 4 dcmp))
                      (entry_table (skipn 4 dcmp)
                                   (Z.to_nat (le_uint (firstn 4 dcmp)))) paths
              /\ Forall (fun p => length p = 1%nat) paths).
  { intros dcmp paths H.
    destruct (parse_directory_Ok _ _ H) as [H4 Ht].
    rewrite parse_directory_table in H by assumption. split.
    - destruct (paths_loop_bytes _ _ _ _ (entry_table_nonneg _ _) H)
        as [ps [-> Hps]].
      exact Hps.
    - apply (paths_loop_one_char _ _ _ _ H). constructor. }
  split; [exact P|]. split.
  - intros zlib buf paths H. destruct (main_parses _ _ _ H) as [dcmp Hd].
    apply (P dcmp paths Hd).
  - intros dcmp path_offset b Ho Hb. rewrite read_path_byte by exact Ho.
    rewrite Hb. split; intros Hc.
    + destruct (Z.ltb_spec (int_of_byte b) 0x80); [reflexivity|lia].
    + destruct (Z.ltb_spec (int_of_byte b) 0x80); [lia|reflexivity].
Qed.

Lemma paths_are_single_bytes_witness :
  parse_directory two_entry_directory = Ok [[0x61]; [0x63]]
  /\ Forall (fun p : str => length p = 1%nat) [[0x61]; [0x63]]
  /\ nth_error [xc3; xa9; x00] (Z.to_nat 0) = Some xc3
  /\ read_path [xc3; xa9; x00] 0 = Raise UnicodeDecodeError.
Proof.
  destruct paths_are_single_bytes as [Hp [_ Hr]].
  split; [reflexivity|]. split; [|split; [reflexivity|]].
  - apply (Hp two_entry_directory [[0x61]; [0x63]] eq_refl).
  - apply (Hr [xc3; xa9; x00] 0 xc3); [lia|reflexivity|cbn; lia].
Defined.

(** ** The path of an entry: one byte, not the string *)

(** C3 on [two_entry_directory]: the path at offset 24 is ["ab"] up to the
    zero byte, and the script reads ["a"]. *)
Example read_path_stops_after_one_byte :
  read_path (skipn 4 two_entry_directory) 24 = Ok [0x61]
  /\ resolve_path (skipn 4 two_entry_directory) 24 = Ok [0x61; 0x62].
Proof.
  split; reflexivity.
Qed.

(** C4 on [two_entry_directory]: the two entries are read at offsets 0 and
    12, their strings are ["ab"] and ["cd"], and the parser returns ["a"]
    and ["c"], in entry order. *)
Example parse_directory_two_entries :
  entry_table (skipn 4 two_entry_directory) 2
  = [Entry.mk 24 0 5; Entry.mk 27 5 7]
  /\ map (fun e => resolve_path (skipn 4 two_entry_directory) (Entry.path_offset e))
         (entry_table (skipn 4 two_entry_directory) 2)
     = [Ok [0x61; 0x62]; Ok [0x63; 0x64]]
  /\ parse_directory two_entry_directory = Ok [[0x61]; [0x63]].
Proof.
  repeat split; reflexivity.
Qed.

(** * Further properties of the script *)

(** ** The keystream across offsets and prefixes *)

Lemma unmask_offset_mod (buffer : bytes) (base_offset k : Z) :
  unmask buffer (base_offset + 2 ^ 32 * k) = unmask buffer base_offset.
Proof.
  unfold unmask. f_equal.
  rewrite Z.add_assoc, Z.mul_comm. apply Z.mod_add. lia.
Qed.

(** X1. The keystream depends on the offset modulo 2^32 only: [decode] gives
    the same bytes at offsets that differ by a multiple of 2^32, although the
    script never reduces the offset itself. *)
Theorem decode_offset_mod (buf : bytes) (offset k : Z) :
  decode buf (offset + 2 ^ 32 * k) = decode buf offset.
Proof.
  rewrite !decode_unmask, unmask_offset_mod. reflexivity.
Qed.

Lemma unmask_from_app (seed : Z) (a b : bytes) :
  unmask_from seed (a ++ b)
  = unmask_from seed a ++ unmask_from (Nat.iter (length a) lcg_next seed) b.
Proof.
  revert seed. induction a as [|x a IH]; intros seed; [reflexivity|].
  cbn [app unmask_from length]. rewrite IH, Nat.iter_succ_r. reflexivity.
Qed.

(** X2. [decode] works front to back: on [a + b] its output starts with its
    output on [a] alone, whatever follows, and goes on with [b] unmasked from
    the generator state reached after [len(a)] steps. *)
Theorem decode_prefix (a b : bytes) (offset : Z) :
  exists out_a tail,
    decode a offset = Ok out_a
    /\ decode (a ++ b) offset = Ok (out_a ++ tail)
    /\ length out_a = length a
    /\ tail = unmask_from (seed_after offset (length a)) b.
Proof.
  exists (unmask a offset), (unmask_from (seed_after offset (length a)) b).
  split; [apply decode_unmask|]. split.
  - rewrite decode_unmask. unfold unmask. now rewrite unmask_from_app.
  - split; [apply unmask_from_length|reflexivity].
Qed.

(** ** The header decoder on any archive *)

Lemma slice_firstn {A : Type} (l : list A) (n : Z) :
  0 <= n -> slice l 0 n = firstn (Z.to_nat n) l.
Proof.
  intros Hn. unfold slice, slice_index, len. cbn [Z.ltb Z.compare].
  replace (n <? 0) with false by (symmetry; apply Z.ltb_ge; exact Hn).
  rewrite (Z.min_l 0) by lia. cbn [Z.to_nat skipn]. rewrite Nat.sub_0_r.
  destruct (Z.le_gt_cases n (Z.of_nat (length l))) as [H|H].
  - now rewrite Z.min_l by exact H.
  - rewrite Z.min_r by lia. rewrite Nat2Z.id, firstn_all.
    symmetry. apply firstn_all2. lia.
Qed.

Lemma decode_header_firstn (buf : bytes) :
  decode_header buf
  = ('(signature, size, offset, compressed_size)
       <- unpack_IIII (unmask (firstn 16 buf) 0) ;;
     Ok (Header.mk signature size offset compressed_size)).
Proof.
  unfold decode_header. rewrite slice_firstn by lia.
  rewrite decode_unmask. reflexivity.
Qed.

Lemma decode_header_under_16 (buf : bytes) :
  len buf < 16 -> decode_header buf = Raise struct_error.
Proof.
  intros H. rewrite decode_header_firstn. unfold unpack_IIII, len, unmask in *.
  rewrite unmask_from_length, length_firstn.
  match goal with |- context [?n =? 16] => destruct (Z.eqb_spec n 16) as [E|_] end;
    [lia|reflexivity].
Qed.

(** X3. An archive shorter than 16 bytes has no header: the slice
    [buf[0:16]] is short, and [struct.unpack] raises [struct.error]. *)
Theorem decode_header_short (buf : bytes) :
  len buf < 16 -> decode_header buf = Raise struct_error.
Proof.
  exact (decode_header_under_16 buf).
Qed.

Lemma decode_header_short_witness :
  len [x01; x02; x03] < 16
  /\ decode_header [x01; x02; x03] = Raise struct_error.
Proof.
  split; [cbn; lia|].
  apply (decode_header_short [x01; x02; x03]). cbn. lia.
Defined.

Lemma le_uint_bound (bs : bytes) : 0 <= le_uint bs < 256 ^ Z.of_nat (length bs).
Proof.
  induction bs as [|b rest IH]; [cbn; lia|].
  cbn [le_uint length]. rewrite Nat2Z.inj_succ, Z.pow_succ_r by lia.
  pose proof (int_of_byte_range b). lia.
Qed.

Lemma field_I_uint32 (w : bytes) (k : nat) : is_uint32 (field_I w k).
Proof.
  unfold is_uint32, field_I.
  pose proof (le_uint_bound (firstn 4 (skipn (4 * k) w))) as H.
  assert (L : Z.of_nat (length (firstn 4 (skipn (4 * k) w))) <= 4)
    by (rewrite length_firstn; lia).
  assert (P : 256 ^ Z.of_nat (length (firstn 4 (skipn (4 * k) w))) <= 256 ^ 4)
    by (apply Z.pow_le_mono_r; lia).
  change (256 ^ 4) with (2 ^ 32) in P. lia.
Qed.

Lemma pack_I_le_uint (a b c d : byte) : pack_I (le_uint [a; b; c; d]) = [a; b; c; d].
Proof.
  unfold pack_I. cbn [le_uint].
  pose proof (int_of_byte_range a) as Ha. pose proof (int_of_byte_range b) as Hb.
  pose proof (int_of_byte_range c) as Hc. pose proof (int_of_byte_range d) as Hd.
  change (2 ^ 8) with 256. change (2 ^ 16) with 65536.
  change (2 ^ 24) with 16777216.
  repeat f_equal; apply int_of_byte_inj; rewrite int_of_byte_of_Z_mod;
    Z.to_euclidean_division_equations; lia.
Qed.

Lemma pack_unpack_IIII (w : bytes) :
  length w = 16%nat ->
  exists h, (' (signature, size, offset, compressed_size) <- unpack_IIII w ;;
             Ok (Header.mk signature size offset compressed_size)) = Ok h
            /\ pack_header h = w.
Proof.
  intros L.
  do 16 (destruct w as [|? w]; [discriminate|]).
  destruct w; [|discriminate].
  eexists. split; [reflexivity|].
  unfold pack_header, field_I.
  cbn [Header.signature Header.size Header.offset Header.compressed_size
       Nat.mul Nat.add skipn firstn].
  rewrite !pack_I_le_uint. reflexivity.
Qed.

Lemma decode_header_fields (buf : bytes) (h : Header.t) :
  decode_header buf = Ok h ->
  is_uint32 (Header.signature h) /\ is_uint32 (Header.size h)
  /\ is_uint32 (Header.offset h) /\ is_uint32 (Header.compressed_size h).
Proof.
  rewrite decode_header_firstn. unfold unpack_IIII.
  destruct (_ =? 16); [|discriminate]. cbn [bind]. intros [= <-].
  cbn [Header.signature Header.size Header.offset Header.compressed_size].
  repeat split; apply field_I_uint32.
Qed.

(** X4. Every archive of at least 16 bytes has a header: the decoder
    returns one, each of its four fields is an unsigned 32-bit value, and
    packing the fields and masking them at offset 0 gives back the archive's
    first 16 bytes, so the decoder loses nothing of them and reads nothing
    after them. *)
Theorem decode_header_total (buf : bytes) :
  16 <= len buf ->
  exists h, decode_header buf = Ok h
            /\ is_uint32 (Header.signature h) /\ is_uint32 (Header.size h)
            /\ is_uint32 (Header.offset h) /\ is_uint32 (Header.compressed_size h)
            /\ unmask (pack_header h) 0 = firstn 16 buf.
Proof.
  intros H.
  assert (L : length (unmask (firstn 16 buf) 0) = 16%nat).
  { unfold unmask. rewrite unmask_from_length, length_firstn.
    unfold len in H. lia. }
  destruct (pack_unpack_IIII _ L) as [h [Hh Hp]].
  rewrite <- decode_header_firstn in Hh.
  exists h. split; [exact Hh|].
  destruct (decode_header_fields _ _ Hh) as [F0 [F1 [F2 F3]]].
  repeat (split; [assumption|]).
  rewrite Hp. apply unmask_involutive.
Qed.

Lemma decode_header_total_witness :
  16 <= len (header_only_archive ++ [x07; x08])
  /\ exists h, decode_header (header_only_archive ++ [x07; x08]) = Ok h
               /\ is_uint32 (Header.signature h) /\ is_uint32 (Header.size h)
               /\ is_uint32 (Header.offset h)
               /\ is_uint32 (Header.compressed_size h)
               /\ unmask (pack_header h) 0
                  = firstn 16 (header_only_archive ++ [x07; x08]).
Proof.
  split; [cbn; lia|].
  apply (decode_header_total (header_only_archive ++ [x07; x08])). cbn. lia.
Defined.

(** ** The directory parser, exactly *)

Lemma paths_loop_complete (body : bytes) (entries : list Entry.t)
      (acc ps : list str) :
  Forall (fun e => 0 <= Entry.path_offset e) entries ->
  Forall2 (one_byte_path body) entries ps ->
  for_each entries (path_step body) acc = Ok (acc ++ ps).
Proof.
  intros Hnn H. revert acc. induction H as [|e p rest ps' Hp _ IH]; intros acc.
  - cbn. now rewrite app_nil_r.
  - inversion Hnn as [|? ? He Hrest]; subst.
    destruct Hp as [b [Hb [Hlt ->]]].
    cbn [for_each]. unfold path_step at 1.
    rewrite read_path_byte by exact He. rewrite Hb.
    destruct (Z.ltb_spec (int_of_byte b) 0x80) as [_|Hge]; [|lia].
    cbn [bind]. rewrite (IH Hrest). now rewrite <- app_assoc.
Qed.

(** X5. The parser returns [paths] exactly when the buffer holds the 4-byte
    count, the whole table of [nentries] 12-byte records fits after it, and
    [paths] lists, entry by entry and in order, the one character of the
    byte at each entry's [path_offset], each of them below 0x80. The
    entries' [offset] and [size] fields play no part. *)
Theorem parse_directory_iff (dcmp : bytes) (paths : list str) :
  parse_directory dcmp = Ok paths
  <-> 4 <= len dcmp
      /\ 12 * le_uint (firstn 4 dcmp) <= len (skipn 4 dcmp)
      /\ Forall2 (one_byte_path (skipn 4 dcmp))
                 (entry_table (skipn 4 dcmp) (Z.to_nat (le_uint (firstn 4 dcmp))))
                 paths.
Proof.
  split.
  - intros H. destruct (parse_directory_Ok _ _ H) as [H4 Ht].
    split; [exact H4|]. split; [exact Ht|].
    rewrite parse_directory_table in H by assumption.
    destruct (paths_loop_bytes _ _ _ _ (entry_table_nonneg _ _) H)
      as [ps [-> Hps]].
    exact Hps.
  - intros [H4 [Ht Hps]]. rewrite parse_directory_table by assumption.
    exact (paths_loop_complete _ _ [] _ (entry_table_nonneg _ _) Hps).
Qed.

(** X6. A parsed directory has one path per entry: the number of paths is
    the entry count of the buffer's first 4 bytes. *)
Theorem parse_directory_path_count (dcmp : bytes) (paths : list str) :
  parse_directory dcmp = Ok paths -> len paths = le_uint (firstn 4 dcmp).
Proof.
  intros H. destruct (parse_directory_Ok _ _ H) as [H4 Ht].
  rewrite parse_directory_table in H by assumption.
  destruct (paths_loop_bytes _ _ _ _ (entry_table_nonneg _ _) H)
    as [ps [-> Hps]].
  apply Forall2_length in Hps. unfold entry_table in Hps.
  rewrite length_map, length_seq in Hps.
  pose proof (le_uint_nonneg (firstn 4 dcmp)).
  unfold len. cbn [app]. lia.
Qed.

Lemma parse_directory_path_count_witness :
  parse_directory two_entry_directory = Ok [[0x61]; [0x63]]
  /\ len [[0x61]; [0x63]] = le_uint (firstn 4 two_entry_directory).
Proof.
  split; [reflexivity|].
  apply (parse_directory_path_count two_entry_directory [[0x61]; [0x63]]).
  reflexivity.
Defined.

(** X7. A count the buffer cannot hold is a [struct.error] whatever the
    entries say: a buffer under 4 bytes, or an entry table longer than the
    rest of the buffer, raises [struct.error] before any path is read, so
    never a [UnicodeDecodeError]. *)
Theorem parse_directory_table_error (dcmp : bytes) :
  len dcmp < 4 \/ len (skipn 4 dcmp) < 12 * le_uint (firstn 4 dcmp) ->
  parse_directory dcmp = Raise struct_error.
Proof.
  intros H. destruct (Z.lt_ge_cases (len dcmp) 4) as [Hs|H4].
  - now apply parse_directory_short.
  - destruct H as [H|H]; [lia|]. now apply parse_directory_overrun.
Qed.

Lemma parse_directory_table_error_witness :
  len (skipn 4 [x02; x00; x00; x00; x0c; x00; x00; x00; x00; x00; x00; x00;
                x00; x00; x00; x00; xff])
  < 12 * le_uint (firstn 4 [x02; x00; x00; x00; x0c; x00; x00; x00; x00; x00;
                            x00; x00; x00; x00; x00; x00; xff])
  /\ parse_directory [x02; x00; x00; x00; x0c; x00; x00; x00; x00; x00; x00; x00;
                      x00; x00; x00; x00; xff]
     = Raise struct_error.
Proof.
  split; [cbn; lia|].
  apply (parse_directory_table_error
           [x02; x00; x00; x00; x0c; x00; x00; x00; x00; x00; x00; x00;
            x00; x00; x00; x00; xff]).
  right. cbn. lia.
Defined.

Lemma paths_loop_first_raise (body : bytes) (before after : list Entry.t)
      (e : Entry.t) (acc : list str) (x : exn) :
  Forall (fun e' => exists p, read_path body (Entry.path_offset e') = Ok p) before ->
  read_path body (Entry.path_offset e) = Raise x ->
  for_each (before ++ e :: after) (path_step body) acc = Raise x.
Proof.
  intros Hb He. revert acc. induction Hb as [|e' rest [p Hp] _ IH]; intros acc.
  - cbn [app for_each]. unfold path_step at 1. now rewrite He.
  - cbn [app for_each]. unfold path_step at 1. rewrite Hp. cbn [bind]. apply IH.
Qed.

(** X8. The first unreadable path decides the failure: when the table fits
    and the paths of the entries before entry [e] can be read, the parser
    raises what reading [e]'s path raises ([struct.error] for an offset past
    the end, [UnicodeDecodeError] for a byte of 0x80 or above), whatever the
    later entries hold. *)
Theorem parse_directory_first_bad_path (dcmp : bytes)
        (before after : list Entry.t) (e : Entry.t) (x : exn) :
  4 <= len dcmp ->
  12 * le_uint (firstn 4 dcmp) <= len (skipn 4 dcmp) ->
  entry_table (skipn 4 dcmp) (Z.to_nat (le_uint (firstn 4 dcmp)))
  = before ++ e :: after ->
  Forall (fun e' => exists p,
              read_path (skipn 4 dcmp) (Entry.path_offset e') = Ok p) before ->
  read_path (skipn 4 dcmp) (Entry.path_offset e) = Raise x ->
  parse_directory dcmp = Raise x.
Proof.
  intros H4 Ht Htab Hb He. rewrite parse_directory_table by assumption.
  rewrite Htab. now apply paths_loop_first_raise.
Qed.

Lemma parse_directory_first_bad_path_witness :
  parse_directory bad_paths_directory = Raise UnicodeDecodeError.
Proof.
  apply (parse_directory_first_bad_path bad_paths_directory
           [Entry.mk 36 0 1] [Entry.mk 255 3 1] (Entry.mk 37 1 2)
           UnicodeDecodeError).
  - cbn. lia.
  - cbn. lia.
  - reflexivity.
  - constructor; [|constructor]. exists [0x61]. reflexivity.
  - reflexivity.
Defined.

(** ** The whole script *)

Lemma for_each_exn {A S : Type} (P : exn -> Prop) (xs : list A)
      (body : A -> S -> result S) :
  (forall x s e, body x s = Raise e -> P e) ->
  forall s e, for_each xs body s = Raise e -> P e.
Proof.
  intros Hbody. induction xs as [|x rest IH]; intros s e H; [discriminate|].
  cbn [for_each] in H. destruct (body x s) as [s'|x'] eqn:Hx.
  - exact (IH _ _ H).
  - injection H as <-. exact (Hbody _ _ _ Hx).
Qed.

Lemma entry_step_exn (body : bytes) (i : Z) (entries : list Entry.t) (e : exn) :
  entry_step body i entries = Raise e -> e = struct_error.
Proof.
  unfold entry_step, unpack_from_III.
  destruct (unpack_window 12 body i) as [w|x] eqn:Hw; [discriminate|].
  apply unpack_window_exn in Hw as ->. now intros [= <-].
Qed.

Lemma path_step_exn (body : bytes) (en : Entry.t) (paths : list str) (e : exn) :
  path_step body en paths = Raise e -> e = struct_error \/ e = UnicodeDecodeError.
Proof.
  unfold path_step.
  destruct (read_path body (Entry.path_offset en)) as [p|x] eqn:Hp; [discriminate|].
  intros [= <-]. exact (read_path_exn _ _ _ Hp).
Qed.

Lemma parse_directory_exn (dcmp : bytes) (e : exn) :
  parse_directory dcmp = Raise e -> e = struct_error \/ e = UnicodeDecodeError.
Proof.
  destruct (Z.lt_ge_cases (len dcmp) 4) as [Hs|H4].
  { rewrite parse_directory_short by exact Hs. intros [= <-]. now left. }
  rewrite parse_directory_entries by exact H4.
  destruct (for_each _ (entry_step (skipn 4 dcmp)) []) as [entries|x] eqn:He.
  - cbn [bind].
    apply (for_each_exn (fun x => x = struct_error \/ x = UnicodeDecodeError)).
    intros en s. apply path_step_exn.
  - intros [= <-]. left. revert He.
    apply (for_each_exn (fun x => x = struct_error)).
    intros i s. apply entry_step_exn.
Qed.

Lemma decode_header_exn (buf : bytes) (e : exn) :
  decode_header buf = Raise e -> e = struct_error.
Proof.
  rewrite decode_header_firstn. unfold unpack_IIII.
  destruct (_ =? 16); [discriminate|]. now intros [= <-].
Qed.

Lemma decompress_directory_exn (zlib : bytes -> Z -> option bytes) (buf : bytes)
      (header : Header.t) (e : exn) :
  decompress_directory zlib buf header = Raise e -> e = zlib_error.
Proof.
  unfold decompress_directory. rewrite decode_unmask. cbn [bind].
  unfold zlib_call. destruct (zlib _ 31); [discriminate|]. now intros [= <-].
Qed.

(** X9. The script fails in three ways only: [struct.error] (a short
    header, count, entry table or path offset), [zlib.error] from the
    decompressor, or [UnicodeDecodeError] from a path byte. It never raises
    [OverflowError]: the byte passed to [to_bytes(1)] always fits, for every
    archive and every header offset. *)
Theorem main_exceptions (zlib : bytes -> Z -> option bytes) (buf : bytes) :
  main zlib buf <> Raise OverflowError
  /\ (forall e, main zlib buf = Raise e ->
        e = struct_error \/ e = zlib_error \/ e = UnicodeDecodeError).
Proof.
  assert (E : forall e, main zlib buf = Raise e ->
                e = struct_error \/ e = zlib_error \/ e = UnicodeDecodeError).
  { intros e. unfold main.
    destruct (decode_header buf) as [header|x] eqn:Hh.
    - cbn [bind].
      destruct (decompress_directory zlib buf header) as [dcmp|y] eqn:Hd.
      + cbn [bind]. intros H.
        destruct (parse_directory_exn _ _ H) as [->| ->]; auto.
      + intros [= <-]. apply decompress_directory_exn in Hd as ->. auto.
    - intros [= <-]. apply decode_header_exn in Hh as ->. auto. }
  split; [|exact E].
  intros H. destruct (E _ H) as [H'|[H'|H']]; discriminate.
Qed.

(** X10. An archive shorter than 16 bytes stops the script at the header
    with [struct.error]; the decompressor is not reached. *)
Theorem main_short_archive (zlib : bytes -> Z -> option bytes) (buf : bytes) :
  len buf < 16 -> main zlib buf = Raise struct_error.
Proof.
  intros H. unfold main. now rewrite decode_header_under_16.
Qed.

Lemma main_short_archive_witness :
  len [x01; x02; x03; x04; x05] < 16
  /\ main (fun data _ => Some data) [x01; x02; x03; x04; x05] = Raise struct_error.
Proof.
  split; [cbn; lia|].
  apply (main_short_archive (fun data _ => Some data) [x01; x02; x03; x04; x05]).
  cbn. lia.
Defined.

Lemma decode_header_packed (h : Header.t) (payload : bytes) :
  is_uint32 (Header.signature h) -> is_uint32 (Header.size h) ->
  is_uint32 (Header.offset h) -> is_uint32 (Header.compressed_size h) ->
  decode_header (unmask (pack_header h) 0 ++ payload) = Ok h.
Proof.
  intros H0 H1 H2 H3. rewrite decode_header_firstn.
  rewrite firstn_app, firstn_all2
    by (unfold unmask; rewrite unmask_from_length; cbn; lia).
  replace (16 - length (unmask (pack_header h) 0))%nat with 0%nat
    by (unfold unmask; rewrite unmask_from_length; reflexivity).
  cbn [firstn]. rewrite app_nil_r, unmask_involutive.
  rewrite field_I_pack_header by assumption. cbn [bind].
  destruct h; reflexivity.
Qed.

(** X11. The script undoes the archive's layout: for an archive made of a
    header masked at offset 0, any filler, and at the header's [offset] the
    4 ignored bytes and the compressed directory masked together at that
    offset, the script's paths are those of parsing what the decompressor
    returns for the compressed directory (and its failure is the script's).
    The filler, the 4 bytes and the header's other fields do not matter. *)
Theorem main_round_trip (zlib : bytes -> Z -> option bytes) (h : Header.t)
        (filler ignored compressed : bytes) :
  is_uint32 (Header.signature h) -> is_uint32 (Header.size h) ->
  is_uint32 (Header.offset h) -> is_uint32 (Header.compressed_size h) ->
  Header.offset h = 16 + len filler ->
  length ignored = 4%nat ->
  main zlib (unmask (pack_header h) 0 ++ filler
             ++ unmask (ignored ++ compressed) (Header.offset h))
  = match zlib compressed 31 with
    | Some dcmp => parse_directory dcmp
    | None => Raise zlib_error
    end.
Proof.
  intros H0 H1 H2 H3 Hoff Hig. unfold main.
  rewrite decode_header_packed by assumption. cbn [bind].
  rewrite decompress_directory_eq by (unfold len in Hoff; lia).
  assert (L : length (unmask (pack_header h) 0 ++ filler)
              = Z.to_nat (Header.offset h)).
  { rewrite length_app. unfold unmask. rewrite unmask_from_length.
    change (length (pack_header h)) with 16%nat. unfold len in Hoff. lia. }
  rewrite app_assoc, <- L, skipn_app, skipn_all, Nat.sub_diag.
  change (skipn 0 (unmask (ignored ++ compressed) (Header.offset h)))
    with (unmask (ignored ++ compressed) (Header.offset h)).
  cbn [app]. rewrite unmask_involutive.
  rewrite <- Hig, skipn_app, skipn_all, Nat.sub_diag. cbn [skipn app].
  unfold zlib_call. destruct (zlib compressed 31); reflexivity.
Qed.

Lemma main_round_trip_witness :
  18 = 16 + len [x2a; x2b]
  /\ length [x01; x02; x03; x04] = 4%nat
  /\ main (fun data _ => Some (rev data))
          (unmask (pack_header (Header.mk 7 64 18 4)) 0 ++ [x2a; x2b]
           ++ unmask ([x01; x02; x03; x04] ++ [x00; x00; x00; x00]) 18)
     = Ok [].
Proof.
  split; [reflexivity|]. split; [reflexivity|].
  refine (eq_trans
            (main_round_trip (fun data _ => Some (rev data)) (Header.mk 7 64 18 4)
               [x2a; x2b] [x01; x02; x03; x04] [x00; x00; x00; x00]
               _ _ _ _ _ _) _);
    try reflexivity; cbv; split; try discriminate; reflexivity.
Defined.

(** X12. The decompressor stage reads the archive from [header.offset] on
    and nothing else: two archives with the same bytes from that offset on
    give the same outcome, whatever their first [header.offset] bytes are and
    whatever the headers' signature, size and compressed size are. *)
Theorem decompress_directory_suffix_only (zlib : bytes -> Z -> option bytes)
        (before before' suffix : bytes) (header header' : Header.t) :
  Header.offset header = len before ->
  len before' = len before ->
  Header.offset header' = Header.offset header ->
  decompress_directory zlib (before ++ suffix) header
  = decompress_directory zlib (before' ++ suffix) header'.
Proof.
  intros Ho Hl Hh. unfold len in *.
  rewrite !decompress_directory_eq by lia.
  rewrite Hh, Ho.
  rewrite Nat2Z.id, skipn_app, skipn_all, Nat.sub_diag.
  assert (E : length before = length before') by lia.
  rewrite E, skipn_app, skipn_all, Nat.sub_diag. reflexivity.
Qed.

Lemma decompress_directory_suffix_only_witness :
  decompress_directory (fun data _ => Some data)
    ([x01; x02] ++ [x0a; x0b; x0c; x0d; x0e]) (Header.mk 1 2 2 3)
  = decompress_directory (fun data _ => Some data)
      ([xfe; xff] ++ [x0a; x0b; x0c; x0d; x0e]) (Header.mk 9 8 2 7).
Proof.
  apply (decompress_directory_suffix_only (fun data _ => Some data)
           [x01; x02] [xfe; xff] [x0a; x0b; x0c; x0d; x0e]
           (Header.mk 1 2 2 3) (Header.mk 9 8 2 7)); reflexivity.
Defined.

(** ** A path that is not terminated *)

(** C8 on [unterminated_path_directory]: the count and the one entry fit,
    the entry's path starts inside the buffer at offset 12, and no zero byte
    follows it, so reading the path up to a zero byte runs past the end of
    the buffer, where the parser is to fail; the script reads the single
    byte at offset 12 and returns the path ["a"]. *)
Example parse_directory_unterminated_path :
  4 <= len unterminated_path_directory
  /\ 12 * le_uint (firstn 4 unterminated_path_directory)
     <= len (skipn 4 unterminated_path_directory)
  /\ entry_table (skipn 4 unterminated_path_directory) 1 = [Entry.mk 12 0 2]
  /\ skipn 12 (skipn 4 unterminated_path_directory) = [x61; x62]
  /\ existsb (fun b => int_of_byte b =? 0)
             (skipn 12 (skipn 4 unterminated_path_directory)) = false
  /\ until_zero (skipn 12 (skipn 4 unterminated_path_directory))
     = skipn 12 (skipn 4 unterminated_path_directory)
  /\ read_path (skipn 4 unterminated_path_directory) 12 = Ok [0x61]
  /\ parse_directory unterminated_path_directory = Ok [[0x61]].
Proof.
  split; [cbn; lia|]. split; [cbn; lia|].
  repeat split; reflexivity.
Qed.
